(* ===================================================================== *)
(* protonats/error.go: the error model of proto-nats, embedded in Rocq.   *)
(*                                                                         *)
(* Go strings are byte strings: they are Rocq [string]s.  A Go interface   *)
(* value of type [error] is an [option error]: [None] is the nil          *)
(* interface.  Maps and slices are reference types, so the header maps     *)
(* and the backing arrays of their value slices live in an explicit heap.  *)
(* A run-time panic is an outcome of its own.                              *)
(* ===================================================================== *)

From Stdlib Require Import Strings.String Strings.Ascii Strings.Byte.
From stdpp Require Import gmap strings list fin_maps.

Open Scope string_scope.

(* --------------------------------------------------------------------- *)
(* Outcomes of Go calls                                                    *)
(* --------------------------------------------------------------------- *)

Inductive outcome (A : Type) : Type :=
| Ret (a : A)
| Panic (msg : string).
Arguments Ret {A} a.
Arguments Panic {A} msg.

Definition returns {A} (o : outcome A) : Prop :=
  match o with Ret _ => True | Panic _ => False end.

Definition panics {A} (o : outcome A) : Prop :=
  match o with Ret _ => False | Panic _ => True end.

(* --------------------------------------------------------------------- *)
(* Error values                                                            *)
(* --------------------------------------------------------------------- *)

Abbreviation loc := positive.

(* type ServiceError struct { Code, Description, Details string } *)
Record ServiceError : Type := mkServiceError {
  se_Code : string;
  se_Description : string;
  se_Details : string
}.

(* The dynamic types an [error] interface can hold:
   - [EFundamental]: what errors.New of github.com/pkg/errors returns; it
     has neither Unwrap nor Cause;
   - [EWithMessage], [EWithStack]: the wrappers of github.com/pkg/errors
     (WithMessage, WithStack; Wrap nests the two); both have
     Unwrap() error;
   - [EService]: a ServiceError value;
   - [EServer]: a ServerError value; it has Cause() but no Unwrap();
   - [EOther]: a value of any other type that implements error, by what
     errors.As and Error() can see of it: its text; its As method, if it
     has one, as a function from the contents of a *ServiceError target
     to the contents it leaves there and the boolean it returns; and the
     errors its Unwrap method yields, in order and without the nil ones
     (none when there is no such method or Unwrap() error returns nil,
     one for Unwrap() error, any number for Unwrap() []error).  A
     *ServiceError pointer, a fmt.Errorf value with %w and an errors.Join
     value are of this kind.
   type ServerError struct {
     Code, Description string; Wrapped error; Headers map[string][]string } *)
#[warnings="-register-all"]
Inductive error : Type :=
| EFundamental (msg : string)
| EWithMessage (cause : error) (msg : string)
| EWithStack (cause : error)
| EService (e : ServiceError)
| EServer (n : ServerError)
| EOther (text : string)
         (as_method : option (ServiceError -> ServiceError * bool))
         (unwrapped : list error)
with ServerError : Type :=
| mkServerError (Code Description : string)
                (Wrapped : option error)
                (Headers : option loc).

Definition Code (n : ServerError) : string :=
  match n with mkServerError c _ _ _ => c end.
Definition Description (n : ServerError) : string :=
  match n with mkServerError _ d _ _ => d end.
Definition Wrapped (n : ServerError) : option error :=
  match n with mkServerError _ _ w _ => w end.
Definition Headers (n : ServerError) : option loc :=
  match n with mkServerError _ _ _ hd => hd end.

(* var ( ErrMarshallingFailed = errors.New(...); ErrUnmarshallingFailed = ... ) *)
Definition ErrMarshallingFailed : error :=
  EFundamental "Failed to marshal proto message".
Definition ErrUnmarshallingFailed : error :=
  EFundamental "Failed to unmarshal proto message".

(* func (e ServiceError) Error() string *)
Definition ServiceError_Error (e : ServiceError) : string :=
  if String.eqb (se_Details e) "" then
    se_Code e ++ ": " ++ se_Description e
  else
    se_Code e ++ ": " ++ se_Description e ++ " (" ++ se_Details e ++ ")".

(* The Error() method of every dynamic type, and
   func (n ServerError) Error() string. *)
Fixpoint error_Error (e : error) : string :=
  match e with
  | EFundamental msg => msg
  | EWithMessage cause msg => msg ++ ": " ++ error_Error cause
  | EWithStack cause => error_Error cause
  | EService se => ServiceError_Error se
  | EServer n => ServerError_Error n
  | EOther text _ _ => text
  end
with ServerError_Error (n : ServerError) : string :=
  match n with
  | mkServerError _ description (Some w) _ => description ++ ": " ++ error_Error w
  | mkServerError _ description None _ => description
  end.

(* func (n ServerError) Cause() error *)
Definition Cause (n : ServerError) : option error := Wrapped n.

(* func (n ServerError) GetWrapped() []byte
   The result is [None] for the nil slice; []byte(s) is never nil. *)
Definition GetWrapped (n : ServerError) : option (list byte) :=
  match Wrapped n with
  | Some w => Some (list_byte_of_string (error_Error w))
  | None => None
  end.

(* func WrapServerErr(err error, code, description string) ServerError *)
Definition WrapServerErr (err : option error) (code description : string)
  : ServerError :=
  mkServerError code description err None.

(* func NewServerErr(code, description string) ServerError *)
Definition NewServerErr (code description : string) : ServerError :=
  WrapServerErr None code description.

(* --------------------------------------------------------------------- *)
(* errors.As with a target of type *ServiceError                           *)
(* --------------------------------------------------------------------- *)

(* What the Unwrap method of the dynamic type yields, without the nil
   errors; nothing where the type has no such method. *)
Definition Unwrap (e : error) : list error :=
  match e with
  | EWithMessage cause _ => [cause]
  | EWithStack cause => [cause]
  | EOther _ _ unwrapped => unwrapped
  | _ => []
  end.

(* The As method of the dynamic type, if it has one.  Neither of the two
   types of this package has one, and those of github.com/pkg/errors have
   none either. *)
Definition As_method (e : error)
  : option (ServiceError -> ServiceError * bool) :=
  match e with
  | EOther _ as_method _ => as_method
  | _ => None
  end.

(* The walk of errors.As once err is not nil, with [target] what the
   *ServiceError target holds: the result is what the target holds
   afterwards and the boolean.  At each error the dynamic type is tested
   for assignability to ServiceError (only ServiceError itself is), then
   the As method is tried, then the walk goes into what Unwrap yields:
   the one error of Unwrap() error, or each error of Unwrap() []error in
   turn until one gives true. *)
Fixpoint errors_as (e : error) (target : ServiceError) : ServiceError * bool :=
  match e with
  | EService se => (se, true)
  | EWithMessage cause _ => errors_as cause target
  | EWithStack cause => errors_as cause target
  | EFundamental _ => (target, false)
  | EServer _ => (target, false)
  | EOther _ as_method unwrapped =>
      let '(target1, ok) :=
        match as_method with
        | Some as_m => as_m target
        | None => (target, false)
        end in
      if ok then (target1, true)
      else
        (fix each (errs : list error) (t : ServiceError)
           : ServiceError * bool :=
           match errs with
           | [] => (t, false)
           | err :: rest =>
               let '(t', ok') := errors_as err t in
               if ok' then (t', true) else each rest t'
           end) unwrapped target1
  end.

(* errors.As(err, &se) where se is a ServiceError variable holding [se0]:
   the new contents of se and the boolean. *)
Definition errors_As (err : option error) (se0 : ServiceError)
  : ServiceError * bool :=
  match err with
  | None => (se0, false)
  | Some e => errors_as e se0
  end.

(* The loop of that walk over the errors of Unwrap() []error, as a
   function of its own: for _, err := range x.Unwrap() { ... }. *)
Fixpoint errors_as_each (errs : list error) (target : ServiceError)
  : ServiceError * bool :=
  match errs with
  | [] => (target, false)
  | err :: rest =>
      let '(t', ok') := errors_as err target in
      if ok' then (t', true) else errors_as_each rest t'
  end.

(* var se ServiceError *)
Definition zero_ServiceError : ServiceError := mkServiceError "" "" "".

(* func (e ServiceError) Is(target error) bool *)
Definition ServiceError_Is (e : ServiceError) (target : option error) : bool :=
  let se := zero_ServiceError in
  let '(_, ok) := errors_As target se in
  ok.

(* func IsServiceError(err error) bool *)
Definition IsServiceError (err : option error) : bool :=
  let se := zero_ServiceError in
  let '(_, ok) := errors_As err se in
  ok.

(* func AsServiceError(err error) (ServiceError, bool) *)
Definition AsServiceError (err : option error) : ServiceError * bool :=
  let se := zero_ServiceError in
  let '(se, ok) := errors_As err se in
  (se, ok).

(* --------------------------------------------------------------------- *)
(* The heap: backing arrays of []string slices and map[string][]string    *)
(* --------------------------------------------------------------------- *)

(* A []string value: nil, or a window of [len] elements starting at index
   [off] of the backing array at [ptr], with room for [cap] elements. *)
Inductive slice : Type :=
| SNil
| SView (ptr : loc) (off len cap : nat).

#[global] Instance slice_eq_dec : EqDecision slice.
Proof. solve_decision. Defined.

Record heap : Type := mkHeap {
  arrays : gmap loc (list string);
  maps : gmap loc (gmap string slice)
}.

Definition empty_heap : heap := mkHeap ∅ ∅.

(* The elements a slice shows: s[0], ..., s[len(s)-1]. *)
Definition elems (h : heap) (s : slice) : list string :=
  match s with
  | SNil => []
  | SView p off len _ => take len (drop off (default [] (arrays h !! p)))
  end.

Definition slice_len (s : slice) : nat :=
  match s with SNil => 0 | SView _ _ len _ => len end.

Definition slice_cap (s : slice) : nat :=
  match s with SNil => 0 | SView _ _ _ cap => cap end.

(* The contents of the map a header field refers to; a nil map reads as
   the empty map. *)
Definition map_of (h : heap) (hd : option loc) : gmap string slice :=
  match hd with
  | None => ∅
  | Some l => default ∅ (maps h !! l)
  end.

(* m[k] as an expression: the zero value, a nil slice, when k is absent
   or m is nil. *)
Definition map_index (h : heap) (hd : option loc) (k : string) : slice :=
  default SNil (map_of h hd !! k).

(* m[k] = s on the map at [l]. *)
Definition map_store (h : heap) (l : loc) (k : string) (s : slice) : heap :=
  mkHeap (arrays h) (<[l := <[k := s]> (default ∅ (maps h !! l))]> (maps h)).

(* m[k] = s as a statement: it panics on a nil map. *)
Definition map_assign (h : heap) (hd : option loc) (k : string) (s : slice)
  : outcome heap :=
  match hd with
  | None => Panic "assignment to entry in nil map"
  | Some l => Ret (map_store h l k s)
  end.

(* make(map[string][]string) *)
Definition make_map (h : heap) : heap * loc :=
  let l := fresh (dom (maps h)) in
  (mkHeap (arrays h) (<[l := ∅]> (maps h)), l).

(* A new backing array with the given contents. *)
Definition new_array (h : heap) (a : list string) : heap * loc :=
  let p := fresh (dom (arrays h)) in
  (mkHeap (<[p := a]> (arrays h)) (maps h), p).

(* []string{value} *)
Definition slice_lit1 (h : heap) (value : string) : heap * slice :=
  let '(h1, p) := new_array h [value] in
  (h1, SView p 0 1 1).

(* What a ServerError's headers show: every name with its sequence. *)
Definition header_view (h : heap) (hd : option loc) : gmap string (list string) :=
  elems h <$> map_of h hd.

(* type Msg struct { Subject, Reply string; Header Header; Data []byte }
   of nats.go, as far as a RespondOpt can see it. *)
Record Msg : Type := mkMsg {
  Subject : string;
  Reply : string;
  Header : option loc;
  Data : option (list byte)
}.

(* type RespondOpt func(m *nats.Msg) of nats.go/micro: the message behind
   the pointer (never nil here) and the heap, before and after. *)
Definition RespondOpt : Type := heap -> Msg -> heap * Msg.

Section ServerErrorMethods.

(* The capacity the run time picks when append has to move a slice to a
   larger array: a function of the old capacity and the length needed.
   The language only promises that the new array is large enough. *)
Variable growcap : nat -> nat -> nat.

(* append(s, v) *)
Definition append (h : heap) (s : slice) (v : string) : heap * slice :=
  let grow :=
    let needed := S (slice_len s) in
    let newcap := Nat.max needed (growcap (slice_cap s) needed) in
    let '(h1, p) :=
      new_array h (elems h s ++ [v] ++ replicate (newcap - needed) "")%list in
    (h1, SView p 0 needed newcap) in
  match s with
  | SNil => grow
  | SView p off len cap =>
      if (len <? cap)%nat then
        (mkHeap (alter (fun a => <[off + len := v]> a) p (arrays h)) (maps h),
         SView p off (S len) cap)
      else grow
  end.

(* func (n ServerError) ensureHeader()
   The receiver is a copy of the caller's value: the result is the heap
   and the value of that copy when the method returns. *)
Definition ensureHeader (h : heap) (n : ServerError) : heap * ServerError :=
  match Headers n with
  | None =>
      let '(h1, l) := make_map h in
      (h1, mkServerError (Code n) (Description n) (Wrapped n) (Some l))
  | Some _ => (h, n)
  end.

(* func (n ServerError) AddHeader(header, value string) ServerError
   n.ensureHeader() works on its own copy of n, which is dropped. *)
Definition AddHeader (h : heap) (n : ServerError) (header value : string)
  : outcome (heap * ServerError) :=
  let '(h1, _) := ensureHeader h n in
  let '(h2, s) := append h1 (map_index h1 (Headers n) header) value in
  match map_assign h2 (Headers n) header s with
  | Panic msg => Panic msg
  | Ret h3 => Ret (h3, n)
  end.

(* func (n ServerError) SetHeader(header, value string) ServerError *)
Definition SetHeader (h : heap) (n : ServerError) (header value : string)
  : outcome (heap * ServerError) :=
  let '(h1, _) := ensureHeader h n in
  let '(h2, s) := slice_lit1 h1 value in
  match map_assign h2 (Headers n) header s with
  | Panic msg => Panic msg
  | Ret h3 => Ret (h3, n)
  end.

(* func (n ServerError) GetHeaders() micro.Headers *)
Definition GetHeaders (h : heap) (n : ServerError)
  : outcome (heap * option loc) :=
  let '(h1, _) := ensureHeader h n in
  Ret (h1, Headers n).

(* func (n ServerError) WithHeaders(headers map[string][]string) error *)
Definition WithHeaders (n : ServerError) (headers : option loc) : error :=
  EServer (mkServerError (Code n) (Description n) (Wrapped n) headers).

(* func (n ServerError) GetOptHeaders() micro.RespondOpt
   The test on n.Headers is made when the option is built, in heap [h];
   the closure reads the map when it is applied. *)
Definition GetOptHeaders (h : heap) (n : ServerError) : RespondOpt :=
  match Headers n with
  | None => fun h' m => (h', m)
  | Some ln =>
      if (size (map_of h (Some ln)) =? 0)%nat then fun h' m => (h', m)
      else
        fun h' m =>
          match Header m with
          | None => (h', mkMsg (Subject m) (Reply m) (Some ln) (Data m))
          | Some lm =>
              (map_fold (fun k v hh => map_store hh lm k v) h'
                        (map_of h' (Some ln)),
               m)
          end
  end.

End ServerErrorMethods.

(* The growth rule of Go's run time below 256 elements, without the
   rounding to allocation size classes: double, or the length needed. *)
Definition go_growcap (oldcap needed : nat) : nat :=
  Nat.max needed (2 * oldcap).

(* --------------------------------------------------------------------- *)
(* Notions the properties are stated with                                 *)
(* --------------------------------------------------------------------- *)

(* [t] occurs in [s]. *)
Definition contains (s t : string) : Prop :=
  exists pre post, s = pre ++ t ++ post.

(* The errors reached from [e] through Unwrap, in the order in which
   errors.As meets them: [e] first, then what each error that Unwrap
   yields reaches, one after the other. *)
Fixpoint unwrap_walk (e : error) : list error :=
  e :: match e with
       | EWithMessage cause _ => unwrap_walk cause
       | EWithStack cause => unwrap_walk cause
       | EOther _ _ unwrapped =>
           (fix each (errs : list error) : list error :=
              match errs with
              | [] => []
              | err :: rest => (unwrap_walk err ++ each rest)%list
              end) unwrapped
       | _ => []
       end.

(* The same walk, going through the cause of a ServerError as well: the
   errors [e] wraps, in the words of WrapServerErr, Wrapped and Cause. *)
Fixpoint wrapped_walk (e : error) : list error :=
  e :: match e with
       | EWithMessage cause _ => wrapped_walk cause
       | EWithStack cause => wrapped_walk cause
       | EServer (mkServerError _ _ (Some cause) _) => wrapped_walk cause
       | EOther _ _ unwrapped =>
           (fix each (errs : list error) : list error :=
              match errs with
              | [] => []
              | err :: rest => (wrapped_walk err ++ each rest)%list
              end) unwrapped
       | _ => []
       end.

(* The first ServiceError value among some errors. *)
Fixpoint first_ServiceError (errs : list error) : option ServiceError :=
  match errs with
  | [] => None
  | EService se :: _ => Some se
  | _ :: rest => first_ServiceError rest
  end.

(* No error reached from [e] through Unwrap has an As method. *)
Definition no_As_method (e : error) : Prop :=
  Forall (fun x => As_method x = None) (unwrap_walk e).

(* "IsServiceError(err) is true exactly when err is a ServiceError or
   wraps one", at one error. *)
Definition found_iff_wrapped (e : error) : Prop :=
  IsServiceError (Some e) = true
  <-> exists se, EService se ∈ wrapped_walk e.

(* A non-nil *ServiceError: its Error() is the one of the value it points
   to, its type is not ServiceError, and it has neither As nor Unwrap. *)
Definition ServiceError_pointer (se : ServiceError) : error :=
  EOther (ServiceError_Error se) None [].

(* A ServerError that wraps a ServiceError. *)
Definition server_over_service : error :=
  EServer (WrapServerErr
             (Some (EService (mkServiceError "NOT_FOUND" "no such record" "")))
             "LOOKUP_FAILED" "cannot load record").

(* The backing array of a slice, if it has one. *)
Definition slice_ptr (s : slice) : option loc :=
  match s with SNil => None | SView p _ _ _ => Some p end.

(* A slice lies within an allocated array. *)
Definition slice_wf (h : heap) (s : slice) : Prop :=
  match s with
  | SNil => True
  | SView p off len cap =>
      (len <= cap)%nat
      /\ exists a, arrays h !! p = Some a /\ (off + cap <= length a)%nat
  end.

(* Every slice stored in a map lies within an allocated array. *)
Definition heap_wf (h : heap) : Prop :=
  forall l m, maps h !! l = Some m ->
  forall k s, m !! k = Some s -> slice_wf h s.

(* Two slices do not share a backing array. *)
Definition separate (s t : slice) : Prop :=
  match slice_ptr s, slice_ptr t with
  | Some p, Some q => p <> q
  | _, _ => True
  end.

#[global] Instance slice_wf_dec (h : heap) (s : slice) : Decision (slice_wf h s).
Proof.
  destruct s as [|p off len cap]; simpl; [left; exact I |].
  destruct (arrays h !! p) as [a|].
  - destruct (decide ((len <= cap)%nat /\ (off + cap <= length a)%nat))
      as [Hd|Hd].
    + left. destruct Hd. split; [assumption |]. exists a. auto.
    + right. intros (Hle & b & [= <-] & Hoff). apply Hd. auto.
  - right. intros (_ & b & Hb & _). discriminate Hb.
Defined.

#[global] Instance heap_wf_dec (h : heap) : Decision (heap_wf h).
Proof.
  change (Decision (map_Forall
                      (fun _ m => map_Forall (fun _ s => slice_wf h s) m)
                      (maps h))).
  apply _.
Defined.

#[global] Instance separate_dec (s t : slice) : Decision (separate s t).
Proof.
  unfold separate. destruct (slice_ptr s), (slice_ptr t); apply _.
Defined.

(* What GetHeaders shows of a ServerError, name by name. *)
Definition observed_headers (h : heap) (n : ServerError)
  : gmap string (list string) :=
  match GetHeaders h n with
  | Ret (h1, hd) => header_view h1 hd
  | Panic _ => ∅
  end.

(* Isolation at one input: a header added to [a] is not seen through
   [b]. *)
Definition headers_isolated (growcap : nat -> nat -> nat) (h : heap)
    (a b : ServerError) (header value : string) : Prop :=
  forall h' a', AddHeader growcap h a header value = Ret (h', a') ->
    observed_headers h' b = observed_headers h b.

(* A layer put around an error by github.com/pkg/errors: WithMessage(err,
   msg) or WithStack(err); Wrap(err, msg) is a WithStack around a
   WithMessage. *)
Inductive layer : Type :=
| LMessage (msg : string)
| LStack.

Fixpoint wrap_layers (ls : list layer) (e : error) : error :=
  match ls with
  | [] => e
  | LMessage msg :: rest => EWithMessage (wrap_layers rest e) msg
  | LStack :: rest => EWithStack (wrap_layers rest e)
  end.

(* The loop of the option GetOptHeaders returns, on a message whose
   header map is at [lm]: for k, v := range n.Headers { m.Header[k] = v },
   n.Headers being the map at [ln]. *)
Definition merge_into (h : heap) (ln lm : loc) : heap :=
  map_fold (fun k v hh => map_store hh lm k v) h (map_of h (Some ln)).

(* for _, v := range values { n = n.AddHeader(header, v) } *)
Fixpoint AddHeader_each (growcap : nat -> nat -> nat) (h : heap)
    (n : ServerError) (header : string) (values : list string)
  : outcome (heap * ServerError) :=
  match values with
  | [] => Ret (h, n)
  | v :: rest =>
      match AddHeader growcap h n header v with
      | Ret (h', n') => AddHeader_each growcap h' n' header rest
      | Panic msg => Panic msg
      end
  end.

(* --------------------------------------------------------------------- *)
(* Concrete heaps                                                          *)
(* --------------------------------------------------------------------- *)

(* base := NewServerErr("C", "d").WithHeaders(map[string][]string{}),
   as a ServerError, and the heap that holds its empty map. *)
Definition heap_one_map : heap := (make_map empty_heap).1.

Definition base_err : ServerError :=
  match WithHeaders (NewServerErr "C" "d") (Some (make_map empty_heap).2) with
  | EServer n => n
  | _ => NewServerErr "C" "d"
  end.

(* Two maps: an empty one, and one with A -> [x]. *)
Definition heap_two_maps : heap :=
  mkHeap {[ 1%positive := ["x"] ]}
         {[ 1%positive := ∅; 2%positive := {[ "A" := SView 1 0 1 1 ]} ]}.

Definition err_map1 : ServerError := mkServerError "C" "d" None (Some 1%positive).
Definition err_map2 : ServerError := mkServerError "C" "d" None (Some 2%positive).

(* Two maps whose sequences for X lie on one array [a; b] of capacity 2:
   the first shows [a], the second [a; b]. *)
Definition heap_shared_array : heap :=
  mkHeap {[ 1%positive := ["a"; "b"] ]}
         {[ 1%positive := {[ "X" := SView 1 0 1 2 ]};
            2%positive := {[ "X" := SView 1 0 2 2 ]} ]}.

(* A message with header A -> [y], and a ServerError with A -> [x]. *)
Definition heap_msg : heap :=
  mkHeap {[ 1%positive := ["x"]; 2%positive := ["y"] ]}
         {[ 1%positive := {[ "A" := SView 1 0 1 1 ]};
            2%positive := {[ "A" := SView 2 0 1 1; "B" := SView 2 0 1 1 ]} ]}.

Definition msg_A_y : Msg := mkMsg "subject" "" (Some 2%positive) None.

(* ===================================================================== *)
(* Properties                                                             *)
(* ===================================================================== *)

Lemma unwrap_walk_Unwrap (e : error) :
  unwrap_walk e = e :: flat_map unwrap_walk (Unwrap e).
Proof.
  destruct e as [msg | cause msg | cause | se | n | text as_m errs];
    simpl; rewrite ?(right_id_L [] (++)%list); reflexivity.
Qed.

Section Text.

Lemma append_assoc (a b c : string) : (a ++ b) ++ c = a ++ b ++ c.
Proof.
  induction a as [|x a IH]; [reflexivity |].
  change (String x ((a ++ b) ++ c) = String x (a ++ b ++ c)).
  now rewrite IH.
Qed.

Lemma append_empty_r (a : string) : a ++ "" = a.
Proof.
  induction a as [|x a IH]; [reflexivity |].
  change (String x (a ++ "") = String x a).
  now rewrite IH.
Qed.

(** C8: the text of a ServiceError is "code: description" when Details is
    empty and "code: description (details)" otherwise; both the code and
    the description occur in it. *)
Theorem ServiceError_Error_format (code description : string) :
  ServiceError_Error (mkServiceError code description "")
    = code ++ ": " ++ description
  /\ (forall (a : ascii) (rest : string),
        ServiceError_Error (mkServiceError code description (String a rest))
          = code ++ ": " ++ description ++ " (" ++ String a rest ++ ")")
  /\ (forall details : string,
        contains (ServiceError_Error (mkServiceError code description details)) code
        /\ contains (ServiceError_Error (mkServiceError code description details))
                    description).
Proof.
  split; [reflexivity | split; [reflexivity |]].
  intros details. unfold ServiceError_Error.
  cbn [se_Code se_Description se_Details].
  destruct (String.eqb details ""); split.
  - exists "", (": " ++ description). reflexivity.
  - exists (code ++ ": "), "".
    now rewrite append_empty_r, append_assoc.
  - exists "", (": " ++ description ++ " (" ++ details ++ ")"). reflexivity.
  - exists (code ++ ": "), (" (" ++ details ++ ")").
    now rewrite append_assoc.
Qed.

(** C6: NewServerErr(code, description).Error() is the description, and
    WrapServerErr(cause, code, description).Error() with a cause is the
    description, ": " and the cause's text; a ServerError as the cause
    contributes its own text in the same way. *)
Theorem ServerError_Error_text (code description : string) :
  ServerError_Error (NewServerErr code description) = description
  /\ (forall cause : error,
        ServerError_Error (WrapServerErr (Some cause) code description)
          = description ++ ": " ++ error_Error cause)
  /\ (forall (inner : error) (code' description' : string),
        ServerError_Error
          (WrapServerErr
             (Some (EServer (WrapServerErr (Some inner) code' description')))
             code description)
          = description ++ ": " ++ description' ++ ": " ++ error_Error inner).
Proof. repeat split. Qed.

Lemma list_byte_of_string_nil (s : string) :
  list_byte_of_string s = [] <-> s = "".
Proof. destruct s; simpl; split; intros H; try reflexivity; discriminate H. Qed.

(** C7: GetWrapped is nil without a cause; with a cause it is the bytes of
    the cause's text, a slice that is not nil and that is empty only when
    that text is empty. *)
Theorem GetWrapped_bytes (code description : string) (hd : option loc) :
  GetWrapped (mkServerError code description None hd) = None
  /\ (forall cause : error,
        GetWrapped (mkServerError code description (Some cause) hd)
          = Some (list_byte_of_string (error_Error cause))
        /\ GetWrapped (mkServerError code description (Some cause) hd) <> None
        /\ (GetWrapped (mkServerError code description (Some cause) hd) = Some []
            <-> error_Error cause = "")).
Proof.
  split; [reflexivity |]. intros cause. unfold GetWrapped; simpl.
  split; [reflexivity | split; [discriminate |]].
  split.
  - intros [= H]. now apply list_byte_of_string_nil.
  - intros H. now rewrite H.
Qed.

End Text.

Section Discrimination.

(* Induction on an error through what Unwrap yields. *)
Section UnwrapInduction.

Variable P : error -> Prop.
Hypothesis HFundamental : forall msg, P (EFundamental msg).
Hypothesis HWithMessage : forall cause msg, P cause -> P (EWithMessage cause msg).
Hypothesis HWithStack : forall cause, P cause -> P (EWithStack cause).
Hypothesis HService : forall se, P (EService se).
Hypothesis HServer : forall n, P (EServer n).
Hypothesis HOther :
  forall text as_m errs, Forall P errs -> P (EOther text as_m errs).

Fixpoint error_unwrap_ind (e : error) : P e :=
  match e with
  | EFundamental msg => HFundamental msg
  | EWithMessage cause msg => HWithMessage cause msg (error_unwrap_ind cause)
  | EWithStack cause => HWithStack cause (error_unwrap_ind cause)
  | EService se => HService se
  | EServer n => HServer n
  | EOther text as_m errs =>
      HOther text as_m errs
        ((fix each (l : list error) : Forall P l :=
            match l with
            | [] => @List.Forall_nil error P
            | x :: rest =>
                @List.Forall_cons error P x rest
                  (error_unwrap_ind x) (each rest)
            end) errs)
  end.

End UnwrapInduction.

Lemma errors_as_EOther (text : string)
    (as_m : option (ServiceError -> ServiceError * bool))
    (errs : list error) (t : ServiceError) :
  errors_as (EOther text as_m errs) t
  = let '(t1, ok) := match as_m with
                     | Some f => f t
                     | None => (t, false)
                     end in
    if ok then (t1, true) else errors_as_each errs t1.
Proof. reflexivity. Qed.

Lemma first_ServiceError_app (l1 l2 : list error) :
  first_ServiceError (l1 ++ l2)%list
  = match first_ServiceError l1 with
    | Some se => Some se
    | None => first_ServiceError l2
    end.
Proof.
  induction l1 as [|x l1 IH]; [reflexivity |].
  destruct x; simpl; auto.
Qed.

Lemma first_ServiceError_Some (l : list error) (se : ServiceError) :
  first_ServiceError l = Some se -> EService se ∈ l.
Proof.
  induction l as [|x l IH]; [discriminate |].
  destruct x; simpl; intros H; rewrite elem_of_cons;
    try (right; now apply IH).
  injection H as ->. now left.
Qed.

Lemma first_ServiceError_None (l : list error) (se : ServiceError) :
  first_ServiceError l = None -> EService se ∈ l -> False.
Proof.
  induction l as [|x l IH]; intros H Hin.
  - now apply elem_of_nil in Hin.
  - apply elem_of_cons in Hin as [<- | Hin]; [discriminate H |].
    destruct x; simpl in H; try discriminate H; now apply IH.
Qed.

(* Without As methods the walk of errors.As returns the first ServiceError
   it meets, and leaves the target alone when it meets none. *)
Lemma errors_as_first (e : error) :
  no_As_method e ->
  forall t,
    errors_as e t
    = match first_ServiceError (unwrap_walk e) with
      | Some se => (se, true)
      | None => (t, false)
      end.
Proof.
  unfold no_As_method.
  induction e as [msg | cause msg IH | cause IH | se | n | text as_m errs IH]
    using error_unwrap_ind; intros Hno t; try reflexivity.
  - simpl in Hno |- *. apply Forall_cons in Hno as [_ Hno]. now apply IH.
  - simpl in Hno |- *. apply Forall_cons in Hno as [_ Hno]. now apply IH.
  - rewrite unwrap_walk_Unwrap in Hno |- *. cbn [Unwrap] in Hno |- *.
    apply Forall_cons in Hno as [Has Hno]. cbn [As_method] in Has.
    rewrite errors_as_EOther. subst as_m.
    cbn [first_ServiceError]. clear text.
    revert t Hno. induction IH as [|x rest Hx _ IHrest]; intros t Hno.
    + reflexivity.
    + cbn [flat_map] in Hno |- *. apply Forall_app in Hno as [Hnox Hnorest].
      cbn [errors_as_each]. rewrite (Hx Hnox t), first_ServiceError_app.
      destruct (first_ServiceError (unwrap_walk x)); [reflexivity |].
      now apply IHrest.
Qed.

(* A ServiceError on the walk makes errors.As return true, whatever the As
   methods on the way do. *)
Lemma errors_as_finds (e : error) :
  forall se, EService se ∈ unwrap_walk e ->
  forall t, (errors_as e t).2 = true.
Proof.
  induction e as [msg | cause msg IH | cause IH | se' | n | text as_m errs IH]
    using error_unwrap_ind; intros se Hin t.
  - simpl in Hin. apply elem_of_cons in Hin as [Hin | Hin];
      [discriminate Hin | now apply elem_of_nil in Hin].
  - simpl in Hin |- *. apply elem_of_cons in Hin as [Hin | Hin];
      [discriminate Hin | now apply (IH se)].
  - simpl in Hin |- *. apply elem_of_cons in Hin as [Hin | Hin];
      [discriminate Hin | now apply (IH se)].
  - reflexivity.
  - simpl in Hin. apply elem_of_cons in Hin as [Hin | Hin];
      [discriminate Hin | now apply elem_of_nil in Hin].
  - rewrite unwrap_walk_Unwrap in Hin. cbn [Unwrap] in Hin.
    apply elem_of_cons in Hin as [Hin | Hin]; [discriminate Hin |].
    rewrite errors_as_EOther.
    destruct (match as_m with Some f => f t | None => (t, false) end)
      as [t1 ok].
    destruct ok; [reflexivity |].
    clear text as_m t. revert t1 Hin.
    induction IH as [|x rest Hx _ IHrest]; intros t Hin.
    + now apply elem_of_nil in Hin.
    + cbn [flat_map] in Hin. cbn [errors_as_each].
      destruct (errors_as x t) as [t' ok'] eqn:E.
      destruct ok'; [reflexivity |].
      apply elem_of_app in Hin as [Hin | Hin].
      * pose proof (Hx se Hin t) as Hok. rewrite E in Hok. discriminate Hok.
      * now apply IHrest.
Qed.

Lemma IsServiceError_errors_As (err : option error) :
  IsServiceError err = (errors_As err zero_ServiceError).2
  /\ AsServiceError err = errors_As err zero_ServiceError
  /\ forall receiver,
       ServiceError_Is receiver err = (errors_As err zero_ServiceError).2.
Proof.
  unfold IsServiceError, AsServiceError, ServiceError_Is.
  now destruct (errors_As err zero_ServiceError).
Qed.

(** C4, as the code has it: IsServiceError(err), the boolean of
    AsServiceError(err) and ServiceError.Is(err), for every receiver, are
    one answer, that of errors.As.  It is true whenever a ServiceError
    value is reached from err through Unwrap (the one error of Unwrap()
    error, or the errors of Unwrap() []error in turn); among errors of
    which none has an As method it is true only then, and AsServiceError
    returns the first ServiceError met on that walk, and the zero
    ServiceError with false when there is none.  A ServerError has no
    Unwrap method: the ServiceError it wraps is not found, and neither is
    a pointer to a ServiceError. *)
Theorem IsServiceError_iff_unwrap_walk (err : option error) :
  (forall receiver, ServiceError_Is receiver err = IsServiceError err)
  /\ (AsServiceError err).2 = IsServiceError err
  /\ (forall e se, err = Some e -> EService se ∈ unwrap_walk e ->
        IsServiceError err = true)
  /\ (forall e, err = Some e -> no_As_method e ->
        (IsServiceError err = true
           <-> exists se, EService se ∈ unwrap_walk e)
        /\ AsServiceError err
           = match first_ServiceError (unwrap_walk e) with
             | Some se => (se, true)
             | None => (zero_ServiceError, false)
             end)
  /\ (forall se code description,
        AsServiceError
          (Some (EServer (WrapServerErr (Some (EService se)) code description)))
        = (zero_ServiceError, false))
  /\ (forall se,
        AsServiceError (Some (ServiceError_pointer se))
        = (zero_ServiceError, false)).
Proof.
  destruct (IsServiceError_errors_As err) as (His & Has & HIs).
  split; [intros receiver; now rewrite HIs, His |].
  split; [now rewrite Has, His |].
  split.
  { intros e se -> Hin. rewrite His. exact (errors_as_finds e se Hin _). }
  split; [| split; reflexivity].
  intros e -> Hno. rewrite His, Has. cbn [errors_As].
  rewrite (errors_as_first e Hno).
  split; [| reflexivity].
  destruct (first_ServiceError (unwrap_walk e)) as [se|] eqn:E; simpl.
  - split; [| reflexivity]. intros _. exists se.
    now apply first_ServiceError_Some.
  - split; [discriminate |]. intros (se & Hin).
    destruct (first_ServiceError_None _ se E Hin).
Qed.

(** C9: IsServiceError is false on an error made by errors.New, on the two
    marshalling sentinels and on every ServerError value. *)
Theorem IsServiceError_false_on_others :
  (forall msg : string, IsServiceError (Some (EFundamental msg)) = false)
  /\ IsServiceError (Some ErrMarshallingFailed) = false
  /\ IsServiceError (Some ErrUnmarshallingFailed) = false
  /\ (forall n : ServerError, IsServiceError (Some (EServer n)) = false).
Proof. repeat split. Qed.

(** C10: on the nil error IsServiceError returns false and AsServiceError
    returns the zero ServiceError with false. *)
Theorem nil_error_is_no_ServiceError :
  IsServiceError None = false
  /\ AsServiceError None = (mkServiceError "" "" "", false).
Proof. split; reflexivity. Qed.

End Discrimination.

(* --------------------------------------------------------------------- *)
(* Headers of a ServerError that never had a map                          *)
(* --------------------------------------------------------------------- *)

Section NilHeaders.

Variable growcap : nat -> nat -> nat.

Lemma ensureHeader_caller_unchanged (h : heap) (n : ServerError) :
  forall h1 n1, ensureHeader h n = (h1, n1) ->
    arrays h1 = arrays h
    /\ (forall l m, maps h !! l = Some m -> maps h1 !! l = Some m)
    /\ (Headers n <> None -> h1 = h).
Proof.
  intros h1 n1. unfold ensureHeader, make_map.
  destruct (Headers n) as [l|]; intros [= <- <-]; simpl.
  - repeat split; auto.
  - repeat split; [| congruence].
    intros l m Hl. rewrite lookup_insert_ne; [assumption |].
    intros <-. pose proof (is_fresh (dom (maps h))) as Hf.
    apply Hf, elem_of_dom. eauto.
Qed.

(** C2: AddHeader and SetHeader panic on a ServerError that comes straight
    from NewServerErr, whatever the heap and the arguments are: the map
    that ensureHeader makes is stored in ensureHeader's own copy of the
    receiver, and the assignment that follows hits the nil map.  The
    other methods return on that value. *)
Theorem header_mutation_panics_on_nil_map
    (h : heap) (code description header value : string) :
  AddHeader growcap h (NewServerErr code description) header value
    = Panic "assignment to entry in nil map"
  /\ SetHeader h (NewServerErr code description) header value
    = Panic "assignment to entry in nil map"
  /\ returns (GetHeaders h (NewServerErr code description)).
Proof.
  unfold AddHeader, SetHeader, GetHeaders, NewServerErr, WrapServerErr.
  unfold ensureHeader, make_map, slice_lit1, new_array, append, new_array.
  simpl. repeat split.
Qed.

(** C3: on a fresh ServerError the first AddHeader("X", "a") already
    panics, so the sequence of calls of the claim yields no ServerError and
    no header value at all; GetHeaders on the fresh value returns the nil
    map. *)
Theorem AddHeader_on_fresh_panics (h : heap) (code description : string) :
  panics (AddHeader growcap h (NewServerErr code description) "X" "a")
  /\ (forall r, AddHeader growcap h (NewServerErr code description) "X" "a"
                  <> Ret r)
  /\ (exists h1, GetHeaders h (NewServerErr code description) = Ret (h1, None)).
Proof.
  unfold AddHeader, GetHeaders, NewServerErr, WrapServerErr.
  unfold ensureHeader, make_map, append, new_array. simpl.
  split; [exact I | split; [discriminate | eauto]].
Qed.

End NilHeaders.

(* --------------------------------------------------------------------- *)
(* GetOptHeaders                                                           *)
(* --------------------------------------------------------------------- *)

Section RespondOptions.

(* for k, v := range src { m.Header[k] = v } on the map at [lm]. *)
Lemma range_store (h : heap) (lm : loc) (src : gmap string slice) :
  let h2 := map_fold (fun k v hh => map_store hh lm k v) h src in
  arrays h2 = arrays h
  /\ (forall l, l <> lm -> maps h2 !! l = maps h !! l)
  /\ default ∅ (maps h2 !! lm) = src ∪ default ∅ (maps h !! lm).
Proof.
  cbv zeta.
  apply (map_fold_weak_ind
           (fun r m => arrays r = arrays h
                       /\ (forall l, l <> lm -> maps r !! l = maps h !! l)
                       /\ default ∅ (maps r !! lm) = m ∪ default ∅ (maps h !! lm))).
  - repeat split. now rewrite (left_id_L ∅ (∪)).
  - intros k s m r Hk (Ha & Ho & Hm). unfold map_store; simpl.
    repeat split.
    + assumption.
    + intros l Hl. rewrite lookup_insert_ne by congruence. now apply Ho.
    + rewrite lookup_insert_eq. simpl. rewrite Hm.
      now rewrite insert_union_l.
Qed.

Lemma size_zero_empty (m : gmap string slice) :
  (size m =? 0)%nat = true <-> m = ∅.
Proof. rewrite Nat.eqb_eq. apply map_size_empty_iff. Qed.

Lemma GetOptHeaders_noop (h : heap) (n : ServerError) :
  map_of h (Headers n) = ∅ ->
  forall h' m, GetOptHeaders h n h' m = (h', m).
Proof.
  intros He h' m. unfold GetOptHeaders.
  destruct (Headers n) as [ln|]; [| reflexivity].
  apply size_zero_empty in He. now rewrite He.
Qed.

Lemma GetOptHeaders_merge (h : heap) (n : ServerError) :
  map_of h (Headers n) <> ∅ ->
  exists ln, Headers n = Some ln
    /\ forall h' m,
         GetOptHeaders h n h' m =
         match Header m with
         | None => (h', mkMsg (Subject m) (Reply m) (Some ln) (Data m))
         | Some lm =>
             (map_fold (fun k v hh => map_store hh lm k v) h'
                       (map_of h' (Some ln)), m)
         end.
Proof.
  intros Hne. unfold GetOptHeaders.
  destruct (Headers n) as [ln|]; [| now destruct Hne].
  exists ln. split; [reflexivity |]. intros h' m.
  destruct (size (map_of h (Some ln)) =? 0)%nat eqn:E; [| reflexivity].
  apply size_zero_empty in E. contradiction.
Qed.


End RespondOptions.

(* --------------------------------------------------------------------- *)
(* Well-formed heaps, append and the header mutations on a map            *)
(* --------------------------------------------------------------------- *)

Section Append.

Local Open Scope list_scope.
Local Open Scope nat_scope.

Variable growcap : nat -> nat -> nat.

Lemma elems_length (h : heap) (s : slice) :
  slice_wf h s -> length (elems h s) = slice_len s.
Proof.
  destruct s as [|p off len cap]; simpl; [reflexivity |].
  intros (Hle & a & -> & Hoff). simpl.
  rewrite length_take_le; [reflexivity |]. rewrite length_drop. lia.
Qed.

Lemma new_array_fresh (h : heap) (a : list string) :
  arrays h !! (new_array h a).2 = None.
Proof.
  unfold new_array; simpl. apply not_elem_of_dom, is_fresh.
Qed.

Lemma new_array_keeps (h : heap) (a : list string) (t : slice) :
  slice_wf h t ->
  slice_wf (new_array h a).1 t /\ elems (new_array h a).1 t = elems h t.
Proof.
  pose proof (new_array_fresh h a) as Hf.
  destruct t as [|q off len cap]; simpl; [auto |].
  intros (Hle & b & Hb & Hoff).
  assert (Hq : fresh (dom (arrays h)) <> q).
  { intros <-. unfold new_array in Hf; simpl in Hf. congruence. }
  rewrite lookup_insert_ne by exact Hq. split; [| reflexivity].
  split; [assumption |]. exists b. auto.
Qed.

(* append never changes a map, and every slice stays within its array. *)
Lemma append_keeps (h : heap) (s : slice) (v : string) (t : slice) :
  maps (append growcap h s v).1 = maps h
  /\ (slice_wf h t -> slice_wf (append growcap h s v).1 t).
Proof.
  unfold append.
  destruct s as [|p off len cap]; [| destruct (len <? cap) eqn:E]; simpl;
    try (split; [reflexivity | intros Ht; now apply (new_array_keeps h _ t)]).
  split; [reflexivity |].
  destruct t as [|q off' len' cap']; simpl; [auto |].
  intros (Hle & b & Hb & Hoff). split; [assumption |].
  rewrite lookup_alter. case_decide as Hpq.
  - subst q. rewrite Hb. simpl. eexists; split; [reflexivity |].
    now rewrite length_insert.
  - eauto.
Qed.

(* A slice on another array shows the same elements after append. *)
Lemma append_frame (h : heap) (s : slice) (v : string) (t : slice) :
  slice_wf h t -> separate s t ->
  elems (append growcap h s v).1 t = elems h t.
Proof.
  intros Ht Hsep. unfold append.
  destruct s as [|p off len cap]; [| destruct (len <? cap) eqn:E];
    try (now apply (new_array_keeps h _ t)).
  destruct t as [|q off' len' cap']; simpl; [reflexivity |].
  unfold separate in Hsep; simpl in Hsep.
  now rewrite lookup_alter_ne by exact Hsep.
Qed.

(* The slice append returns shows the old elements and then [v]. *)
Lemma append_result (h : heap) (s : slice) (v : string) :
  slice_wf h s ->
  elems (append growcap h s v).1 (append growcap h s v).2 = elems h s ++ [v]
  /\ slice_wf (append growcap h s v).1 (append growcap h s v).2.
Proof.
  intros Hs. pose proof (elems_length h s Hs) as Hlen. unfold append.
  assert (Hgrow :
    forall newcap, S (slice_len s) <= newcap ->
      let a := elems h s ++ [v] ++ replicate (newcap - S (slice_len s)) ""%string in
      let r := (let '(h1, p) := new_array h a in
                (h1, SView p 0 (S (slice_len s)) newcap)) in
      elems r.1 r.2 = elems h s ++ [v] /\ slice_wf r.1 r.2).
  { intros newcap Hcap. cbv zeta. unfold new_array. simpl.
    rewrite lookup_insert_eq. simpl. split.
    - rewrite drop_0, take_app_ge by lia. rewrite Hlen.
      now replace (S (slice_len s) - slice_len s) with 1 by lia.
    - split; [lia |]. eexists; split; [reflexivity |].
      rewrite length_app, Hlen. simpl. rewrite length_replicate. lia. }
  destruct s as [|p off len cap]; [| destruct (len <? cap) eqn:E].
  - apply Hgrow. simpl. lia.
  - apply Nat.ltb_lt in E. simpl in Hs |- *.
    destruct Hs as (Hle & a & Ha & Hoff).
    rewrite lookup_alter_eq, Ha. simpl. split.
    + rewrite drop_insert_ge by lia.
      replace (off + len - off) with len by lia.
      rewrite (take_S_r _ _ v).
      * now rewrite take_insert_ge by lia.
      * apply list_lookup_insert_eq. rewrite length_drop. lia.
    + split; [lia |]. eexists; split; [reflexivity |].
      now rewrite length_insert.
  - apply Hgrow. simpl. lia.
Qed.

End Append.

Section HeaderMutation.

Local Open Scope list_scope.

Variable growcap : nat -> nat -> nat.

Lemma elems_arrays (h1 h2 : heap) (t : slice) :
  arrays h1 = arrays h2 -> elems h1 t = elems h2 t.
Proof. intros E. destruct t; simpl; [reflexivity | now rewrite E]. Qed.

Lemma slice_wf_arrays (h1 h2 : heap) (t : slice) :
  arrays h1 = arrays h2 -> slice_wf h1 t -> slice_wf h2 t.
Proof. intros E. destruct t; simpl; [auto | now rewrite E]. Qed.

Lemma map_of_wf (h : heap) (hd : option loc) (k : string) (t : slice) :
  heap_wf h -> map_of h hd !! k = Some t -> slice_wf h t.
Proof.
  intros Hwf. destruct hd as [l|]; simpl; [| now rewrite lookup_empty].
  destruct (maps h !! l) as [m|] eqn:E; simpl; [| now rewrite lookup_empty].
  intros Hk. exact (Hwf l m E k t Hk).
Qed.

Lemma map_index_wf (h : heap) (hd : option loc) (k : string) :
  heap_wf h -> slice_wf h (map_index h hd k).
Proof.
  intros Hwf. unfold map_index.
  destruct (map_of h hd !! k) as [t|] eqn:E; simpl; [| exact I].
  exact (map_of_wf h hd k t Hwf E).
Qed.

Lemma observed_headers_view (h : heap) (n : ServerError) :
  observed_headers h n = header_view h (Headers n).
Proof.
  unfold observed_headers, GetHeaders, ensureHeader.
  destruct (Headers n) as [l|]; simpl; [reflexivity |].
  unfold header_view; simpl. now rewrite !fmap_empty.
Qed.

(* The two mutations on a ServerError that has a map. *)
Lemma AddHeader_on_map (h : heap) (n : ServerError) (l : loc)
    (header value : string) :
  Headers n = Some l ->
  AddHeader growcap h n header value
  = Ret (map_store (append growcap h (map_index h (Some l) header) value).1
                   l header
                   (append growcap h (map_index h (Some l) header) value).2,
         n).
Proof.
  intros Hl. unfold AddHeader, ensureHeader. rewrite Hl. simpl.
  now destruct (append growcap h (map_index h (Some l) header) value).
Qed.

Lemma SetHeader_on_map (h : heap) (n : ServerError) (l : loc)
    (header value : string) :
  Headers n = Some l ->
  SetHeader h n header value
  = Ret (map_store (new_array h [value]).1 l header
                   (SView (new_array h [value]).2 0 1 1),
         n).
Proof. intros Hl. unfold SetHeader, ensureHeader. now rewrite Hl. Qed.

(* A store into the map at [l]: the name stored shows the slice, and a
   ServerError with another map shows what it showed. *)
Lemma map_store_view_eq (h : heap) (l : loc) (k : string) (s : slice) :
  header_view (map_store h l k s) (Some l) !! k = Some (elems h s).
Proof.
  unfold header_view, map_of, map_store. cbn [maps].
  rewrite lookup_insert_eq. cbn [from_option id].
  rewrite lookup_fmap, lookup_insert_eq. reflexivity.
Qed.

Lemma map_store_view_ne (h0 h : heap) (l : loc) (k : string) (s : slice)
    (hd : option loc) :
  hd <> Some l ->
  maps h = maps h0 ->
  (forall j t, map_of h0 hd !! j = Some t -> elems h t = elems h0 t) ->
  header_view (map_store h l k s) hd = header_view h0 hd.
Proof.
  intros Hd Hm Hel. unfold header_view.
  assert (Hof : map_of (map_store h l k s) hd = map_of h0 hd).
  { destruct hd as [l'|]; [| reflexivity].
    unfold map_of, map_store. cbn [maps].
    rewrite lookup_insert_ne by congruence. now rewrite Hm. }
  rewrite Hof. apply map_fmap_ext. intros j t Hj.
  rewrite <- (Hel j t Hj). now apply elems_arrays.
Qed.

Lemma map_store_wf (h0 h : heap) (l : loc) (k : string) (s : slice) :
  maps h = maps h0 -> heap_wf h0 ->
  (forall t, slice_wf h0 t -> slice_wf h t) -> slice_wf h s ->
  heap_wf (map_store h l k s).
Proof.
  intros Hm Hwf Hmono Hs l' m Hl' j t Hj.
  apply (slice_wf_arrays h); [reflexivity |].
  unfold map_store in Hl'; simpl in Hl'.
  destruct (decide (l = l')) as [<-|Hne].
  - rewrite lookup_insert_eq in Hl'. injection Hl' as <-.
    destruct (decide (k = j)) as [<-|Hkj].
    + rewrite lookup_insert_eq in Hj. now injection Hj as <-.
    + rewrite lookup_insert_ne in Hj by exact Hkj.
      apply Hmono, (map_of_wf h0 (Some l) j t Hwf). simpl.
      now rewrite <- Hm.
  - rewrite lookup_insert_ne in Hl' by exact Hne. rewrite Hm in Hl'.
    exact (Hmono t (Hwf l' m Hl' j t Hj)).
Qed.

(* AddHeader on a ServerError with a map returns, keeps the heap well
   formed, and appends the value to what the name showed. *)
Lemma AddHeader_appends (h : heap) (n : ServerError) (l : loc)
    (header value : string) :
  heap_wf h -> Headers n = Some l ->
  exists h',
    AddHeader growcap h n header value = Ret (h', n)
    /\ heap_wf h'
    /\ observed_headers h' n !! header
       = Some (elems h (map_index h (Some l) header) ++ [value]).
Proof.
  intros Hwf Hl. eexists.
  split; [exact (AddHeader_on_map h n l header value Hl) |].
  pose proof (map_index_wf h (Some l) header Hwf) as Hs0.
  destruct (append_result growcap h _ value Hs0) as (Hres & Hswf).
  split.
  - apply (map_store_wf h); auto.
    + apply (append_keeps growcap h _ value SNil).
    + intros t. apply append_keeps.
  - rewrite observed_headers_view, Hl, map_store_view_eq. now rewrite Hres.
Qed.

(* SetHeader on a ServerError with a map returns, keeps the heap well
   formed, and leaves the name with the one value. *)
Lemma SetHeader_replaces (h : heap) (n : ServerError) (l : loc)
    (header value : string) :
  heap_wf h -> Headers n = Some l ->
  exists h',
    SetHeader h n header value = Ret (h', n)
    /\ heap_wf h'
    /\ observed_headers h' n !! header = Some [value].
Proof.
  intros Hwf Hl. eexists.
  split; [exact (SetHeader_on_map h n l header value Hl) |].
  split.
  - apply (map_store_wf h); auto.
    + intros t Ht. now apply new_array_keeps.
    + unfold new_array. simpl. split; [lia |].
      rewrite lookup_insert_eq. eexists; split; [reflexivity |]. simpl. lia.
  - rewrite observed_headers_view, Hl, map_store_view_eq.
    unfold new_array. simpl. now rewrite lookup_insert_eq.
Qed.

(** C1, as the code has it: AddHeader and SetHeader on a ServerError with a
    header map work on that map in place.  They return, and what
    GetHeaders shows of a ServerError with another map (or none) stays the
    same, provided none of its sequences lies on the backing array of the
    sequence appended to; a ServerError that holds the same map shows the
    added value. *)
Theorem header_mutation_reaches_map_holders
    (h : heap) (a b : ServerError) (la : loc) (header value : string) :
  heap_wf h ->
  Headers a = Some la ->
  Headers b <> Some la ->
  (forall k t, map_of h (Headers b) !! k = Some t ->
     separate (map_index h (Some la) header) t) ->
  (exists h', AddHeader growcap h a header value = Ret (h', a)
     /\ observed_headers h' b = observed_headers h b
     /\ forall c, Headers c = Some la ->
          observed_headers h' c !! header
          = Some (elems h (map_index h (Some la) header) ++ [value]))
  /\ (exists h', SetHeader h a header value = Ret (h', a)
       /\ observed_headers h' b = observed_headers h b
       /\ forall c, Headers c = Some la ->
            observed_headers h' c !! header = Some [value]).
Proof.
  intros Hwf Ha Hb Hsep. split.
  - eexists. split; [exact (AddHeader_on_map h a la header value Ha) |].
    split.
    + rewrite !observed_headers_view. apply (map_store_view_ne h).
      * exact Hb.
      * apply (append_keeps growcap h _ value SNil).
      * intros j t Hj. apply append_frame.
        -- exact (map_of_wf h _ j t Hwf Hj).
        -- exact (Hsep j t Hj).
    + intros c Hc.
      destruct (AddHeader_appends h c la header value Hwf Hc)
        as (h' & Hadd & _ & Hobs).
      rewrite (AddHeader_on_map h c la header value Hc) in Hadd.
      injection Hadd as <-. exact Hobs.
  - eexists. split; [exact (SetHeader_on_map h a la header value Ha) |].
    split.
    + rewrite !observed_headers_view. apply (map_store_view_ne h).
      * exact Hb.
      * reflexivity.
      * intros j t Hj. apply new_array_keeps.
        exact (map_of_wf h _ j t Hwf Hj).
    + intros c Hc.
      destruct (SetHeader_replaces h c la header value Hwf Hc)
        as (h' & Hset & _ & Hobs).
      rewrite (SetHeader_on_map h c la header value Hc) in Hset.
      injection Hset as <-. exact Hobs.
Qed.

End HeaderMutation.

(* --------------------------------------------------------------------- *)
(* The claims on concrete heaps                                           *)
(* --------------------------------------------------------------------- *)

Section Examples.

Local Open Scope list_scope.

(** C4 fails on a ServerError that wraps a ServiceError: the ServiceError
    is the cause of the ServerError, and IsServiceError returns false. *)
Lemma IsServiceError_misses_wrapped_ServiceError :
  ~ found_iff_wrapped server_over_service.
Proof.
  intros [_ Hfound].
  assert (H : IsServiceError (Some server_over_service) = true).
  { apply Hfound. eexists. unfold server_over_service. simpl.
    rewrite !elem_of_cons. right. left. reflexivity. }
  discriminate H.
Qed.

(* The cause is there, the discrimination does not see it. *)
Lemma wrapped_ServiceError_is_the_cause :
  Cause (WrapServerErr
           (Some (EService (mkServiceError "NOT_FOUND" "no such record" "")))
           "LOOKUP_FAILED" "cannot load record")
  = Some (EService (mkServiceError "NOT_FOUND" "no such record" ""))
  /\ AsServiceError (Some server_over_service) = (zero_ServiceError, false).
Proof. split; reflexivity. Qed.

(* An error with an As method that accepts the target is taken for a
   ServiceError though none is reached from it. *)
Lemma As_method_answers_without_ServiceError :
  AsServiceError
    (Some (EOther "teapot"
             (Some (fun _ => (mkServiceError "TEAPOT" "short and stout" "", true)))
             []))
  = (mkServiceError "TEAPOT" "short and stout" "", true).
Proof. reflexivity. Qed.

(* Through Unwrap() []error, as of errors.Join, the first ServiceError in
   the order of the slice is the one returned. *)
Lemma joined_errors_first_ServiceError :
  AsServiceError
    (Some (EOther "disk full; NOT_FOUND: no such record; GONE: removed" None
             [EFundamental "disk full";
              EService (mkServiceError "NOT_FOUND" "no such record" "");
              EService (mkServiceError "GONE" "removed" "")]))
  = (mkServiceError "NOT_FOUND" "no such record" "", true).
Proof. reflexivity. Qed.

(** C1 fails on two copies of one ServerError that has a header map: a
    header added through one copy is seen through the other. *)
Lemma headers_not_isolated_on_shared_map :
  ~ headers_isolated go_growcap heap_one_map base_err base_err "X" "a".
Proof.
  intros Hiso.
  pose proof (Hiso _ _ (AddHeader_on_map go_growcap heap_one_map base_err
                          (make_map empty_heap).2 "X" "a" eq_refl)) as E.
  apply (f_equal (fun m => m !! "X"%string)) in E.
  vm_compute in E. discriminate E.
Qed.

Lemma sibling_headers_shared :
  exists h1 h2,
    AddHeader go_growcap heap_one_map base_err "X" "a" = Ret (h1, base_err)
    /\ SetHeader h1 base_err "Y" "b" = Ret (h2, base_err)
    /\ observed_headers heap_one_map base_err = ∅
    /\ observed_headers h2 base_err !! "X"%string = Some ["a"%string]
    /\ observed_headers h2 base_err !! "Y"%string = Some ["b"%string].
Proof.
  eexists. eexists.
  split; [vm_compute; reflexivity |].
  split; [vm_compute; reflexivity |].
  repeat split.
Qed.

(* Without [separate]: the maps differ, the backing array is one, and the
   value appended through the first map replaces b in the second. *)
Lemma shared_array_leaks :
  exists h',
    AddHeader go_growcap heap_shared_array err_map1 "X" "c" = Ret (h', err_map1)
    /\ observed_headers heap_shared_array err_map2 !! "X"%string
        = Some ["a"%string; "b"%string]
    /\ observed_headers h' err_map2 !! "X"%string
        = Some ["a"%string; "c"%string].
Proof. eexists. split; [vm_compute; reflexivity | split; reflexivity]. Qed.

Lemma header_mutation_reaches_map_holders_witness :
  (exists h', AddHeader go_growcap heap_two_maps err_map1 "A" "z"
                = Ret (h', err_map1)
     /\ observed_headers h' err_map2 = observed_headers heap_two_maps err_map2
     /\ forall c, Headers c = Some 1%positive ->
          observed_headers h' c !! "A"%string
          = Some (elems heap_two_maps
                    (map_index heap_two_maps (Some 1%positive) "A")
                  ++ ["z"%string]))
  /\ (exists h', SetHeader heap_two_maps err_map1 "A" "z" = Ret (h', err_map1)
       /\ observed_headers h' err_map2 = observed_headers heap_two_maps err_map2
       /\ forall c, Headers c = Some 1%positive ->
            observed_headers h' c !! "A"%string = Some ["z"%string]).
Proof.
  apply (header_mutation_reaches_map_holders go_growcap heap_two_maps
           err_map1 err_map2 1%positive "A" "z").
  - apply (bool_decide_unpack _). vm_compute. exact I.
  - reflexivity.
  - discriminate.
  - change (map_Forall
              (fun _ t => separate (map_index heap_two_maps (Some 1%positive) "A") t)
              (map_of heap_two_maps (Headers err_map2))).
    apply (bool_decide_unpack _). vm_compute. exact I.
Defined.

(* The message of the claim: A -> [y] becomes A -> [x], B keeps [y]. *)
Lemma GetOptHeaders_overwrites_A :
  exists h2,
    GetOptHeaders heap_msg err_map1 heap_msg msg_A_y = (h2, msg_A_y)
    /\ header_view heap_msg (Header msg_A_y) !! "A"%string = Some ["y"%string]
    /\ header_view h2 (Header msg_A_y) !! "A"%string = Some ["x"%string]
    /\ header_view h2 (Header msg_A_y) !! "B"%string = Some ["y"%string].
Proof. eexists. split; [vm_compute; reflexivity | repeat split]. Qed.

(* On a ServerError with an empty map the calls of the claim give
   X -> [a; b] and then X -> [c]. *)
Lemma header_sequence_on_empty_map :
  exists h1 h2 h3,
    AddHeader go_growcap heap_one_map base_err "X" "a" = Ret (h1, base_err)
    /\ AddHeader go_growcap h1 base_err "X" "b" = Ret (h2, base_err)
    /\ observed_headers h2 base_err !! "X"%string
        = Some ["a"%string; "b"%string]
    /\ SetHeader h2 base_err "X" "c" = Ret (h3, base_err)
    /\ observed_headers h3 base_err !! "X"%string = Some ["c"%string].
Proof.
  do 3 eexists.
  split; [vm_compute; reflexivity |].
  split; [vm_compute; reflexivity |].
  split; [reflexivity |].
  split; [vm_compute; reflexivity |].
  reflexivity.
Qed.

End Examples.

(* --------------------------------------------------------------------- *)
(* When the header mutations return, and what GetHeaders does             *)
(* --------------------------------------------------------------------- *)

Section Returning.

Local Open Scope list_scope.

Variable growcap : nat -> nat -> nat.

(** X1: AddHeader and SetHeader return exactly on a ServerError whose
    Headers field is not nil; on a nil field both panic with the run
    time's message for an assignment into a nil map, whatever the cause,
    the code and the arguments are. *)
Theorem header_mutation_returns_iff_map
    (h : heap) (n : ServerError) (header value : string) :
  (returns (AddHeader growcap h n header value) <-> Headers n <> None)
  /\ (returns (SetHeader h n header value) <-> Headers n <> None)
  /\ (Headers n = None ->
       AddHeader growcap h n header value
         = Panic "assignment to entry in nil map"
       /\ SetHeader h n header value
         = Panic "assignment to entry in nil map").
Proof.
  destruct (Headers n) as [l|] eqn:E.
  - rewrite (AddHeader_on_map growcap h n l header value E).
    rewrite (SetHeader_on_map h n l header value E). simpl.
    repeat split; try discriminate; auto.
  - assert (Ha : AddHeader growcap h n header value
                 = Panic "assignment to entry in nil map").
    { unfold AddHeader, ensureHeader. rewrite E. simpl.
      now destruct (append growcap _ _ _). }
    assert (Hs : SetHeader h n header value
                 = Panic "assignment to entry in nil map").
    { unfold SetHeader, ensureHeader. now rewrite E. }
    rewrite Ha, Hs. simpl. split; [| split]; [split | split |];
      try contradiction; auto.
Qed.

(** X2: GetHeaders returns the Headers field as it is (nil stays nil: no
    map is made for the caller), keeps every backing array and every map
    there was, and changes nothing of what any ServerError shows. *)
Theorem GetHeaders_only_reads (h : heap) (n : ServerError) :
  exists h1,
    GetHeaders h n = Ret (h1, Headers n)
    /\ arrays h1 = arrays h
    /\ (forall l m, maps h !! l = Some m -> maps h1 !! l = Some m)
    /\ (forall hd, map_of h1 hd = map_of h hd)
    /\ (forall b, observed_headers h1 b = observed_headers h b)
    /\ (Headers n <> None -> h1 = h).
Proof.
  unfold GetHeaders.
  destruct (ensureHeader h n) as [h1 n1] eqn:E.
  destruct (ensureHeader_caller_unchanged h n h1 n1 E) as (Ha & Hm & Hsame).
  exists h1. split; [reflexivity |]. split; [exact Ha |]. split; [exact Hm |].
  assert (Hof : forall hd, map_of h1 hd = map_of h hd).
  { intros [l|]; [| reflexivity]. simpl.
    destruct (maps h !! l) as [m|] eqn:El; [now rewrite (Hm l m El) |].
    unfold ensureHeader, make_map in E.
    destruct (Headers n); injection E as <- _; simpl; [now rewrite El |].
    destruct (decide (fresh (dom (maps h)) = l)) as [->|Hne].
    - now rewrite lookup_insert_eq.
    - rewrite lookup_insert_ne by exact Hne. now rewrite El. }
  split; [exact Hof |]. split; [| exact Hsame].
  intros b. rewrite !observed_headers_view. unfold header_view.
  rewrite Hof. apply map_fmap_ext. intros j t _. now apply elems_arrays.
Qed.

End Returning.

(* --------------------------------------------------------------------- *)
(* The header mutations on a ServerError that has a map                   *)
(* --------------------------------------------------------------------- *)

Section OnMap.

Local Open Scope list_scope.

Variable growcap : nat -> nat -> nat.

Lemma map_index_maps (h1 h2 : heap) (hd : option loc) (k : string) :
  maps h1 = maps h2 -> map_index h1 hd k = map_index h2 hd k.
Proof.
  intros E. unfold map_index, map_of. destruct hd; [now rewrite E | reflexivity].
Qed.

Lemma map_index_store (h : heap) (l : loc) (k k' : string) (s : slice) :
  map_index (map_store h l k s) (Some l) k'
  = if decide (k = k') then s else map_index h (Some l) k'.
Proof.
  unfold map_index, map_of, map_store. cbn [maps].
  rewrite lookup_insert_eq. cbn [from_option id].
  case_decide as Hk.
  - subst k'. now rewrite lookup_insert_eq.
  - now rewrite lookup_insert_ne by exact Hk.
Qed.

(** X3: on a ServerError with a header map, in a well-formed heap,
    AddHeader returns its receiver as it was, keeps the heap well formed,
    and the name then shows its former values followed by the new one
    (the new one alone when the name was absent); every other name of the
    map keeps its slice, and shows the same values when that slice lies on
    another backing array than the one appended to. *)
Theorem AddHeader_on_map_appends
    (h : heap) (n : ServerError) (l : loc) (header value : string) :
  heap_wf h -> Headers n = Some l ->
  exists h',
    AddHeader growcap h n header value = Ret (h', n)
    /\ heap_wf h'
    /\ elems h' (map_index h' (Some l) header)
       = elems h (map_index h (Some l) header) ++ [value]
    /\ (forall k, k <> header ->
          map_index h' (Some l) k = map_index h (Some l) k
          /\ (separate (map_index h (Some l) header) (map_index h (Some l) k) ->
              elems h' (map_index h' (Some l) k)
              = elems h (map_index h (Some l) k))).
Proof.
  intros Hwf Hl.
  destruct (AddHeader_appends growcap h n l header value Hwf Hl)
    as (h' & Hadd & Hwf' & _).
  exists h'. split; [exact Hadd |]. split; [exact Hwf' |].
  rewrite (AddHeader_on_map growcap h n l header value Hl) in Hadd.
  injection Hadd as <-.
  pose proof (map_index_wf h (Some l) header Hwf) as Hs0.
  destruct (append_result growcap h _ value Hs0) as (Hres & _).
  destruct (append_keeps growcap h (map_index h (Some l) header) value SNil)
    as (Hmaps & _).
  split.
  - rewrite map_index_store, decide_True by reflexivity.
    rewrite <- Hres. now apply elems_arrays.
  - intros k Hk.
    assert (Hidx : map_index
                     (map_store (append growcap h (map_index h (Some l) header)
                                   value).1 l header
                        (append growcap h (map_index h (Some l) header) value).2)
                     (Some l) k
                   = map_index h (Some l) k).
    { rewrite map_index_store, decide_False by congruence.
      now apply map_index_maps. }
    split; [exact Hidx |]. intros Hsep. rewrite Hidx.
    rewrite <- (append_frame growcap h (map_index h (Some l) header) value
                  (map_index h (Some l) k)
                  (map_index_wf h (Some l) k Hwf) Hsep).
    now apply elems_arrays.
Qed.

(** X4: on a ServerError with a header map, in a well-formed heap,
    SetHeader returns its receiver as it was, keeps the heap well formed,
    leaves the name with the one value, and every other name of the map
    keeps its slice and shows the values it showed. *)
Theorem SetHeader_on_map_replaces
    (h : heap) (n : ServerError) (l : loc) (header value : string) :
  heap_wf h -> Headers n = Some l ->
  exists h',
    SetHeader h n header value = Ret (h', n)
    /\ heap_wf h'
    /\ elems h' (map_index h' (Some l) header) = [value]
    /\ (forall k, k <> header ->
          map_index h' (Some l) k = map_index h (Some l) k
          /\ elems h' (map_index h' (Some l) k)
             = elems h (map_index h (Some l) k)).
Proof.
  intros Hwf Hl.
  destruct (SetHeader_replaces h n l header value Hwf Hl)
    as (h' & Hset & Hwf' & _).
  exists h'. split; [exact Hset |]. split; [exact Hwf' |].
  rewrite (SetHeader_on_map h n l header value Hl) in Hset.
  assert (E : h' = map_store (new_array h [value]).1 l header
                     (SView (new_array h [value]).2 0 1 1)) by congruence.
  clear Hset. subst h'.
  split.
  - rewrite map_index_store, decide_True by reflexivity.
    unfold new_array. simpl. now rewrite lookup_insert_eq.
  - intros k Hk.
    assert (Hidx : map_index
                     (map_store (new_array h [value]).1 l header
                        (SView (new_array h [value]).2 0 1 1))
                     (Some l) k
                   = map_index h (Some l) k).
    { rewrite map_index_store, decide_False by congruence.
      now apply map_index_maps. }
    split; [exact Hidx |]. rewrite Hidx.
    rewrite <- (proj2 (new_array_keeps h [value] (map_index h (Some l) k)
                         (map_index_wf h (Some l) k Hwf))).
    now apply elems_arrays.
Qed.

End OnMap.

(* --------------------------------------------------------------------- *)
(* Giving a ServerError its map, and adding several values                *)
(* --------------------------------------------------------------------- *)

Section Building.

Local Open Scope list_scope.

Variable growcap : nat -> nat -> nat.

Lemma AddHeader_index (h : heap) (n : ServerError) (l : loc)
    (header value : string) :
  heap_wf h -> Headers n = Some l ->
  exists h',
    AddHeader growcap h n header value = Ret (h', n)
    /\ heap_wf h'
    /\ elems h' (map_index h' (Some l) header)
       = elems h (map_index h (Some l) header) ++ [value].
Proof.
  intros Hwf Hl.
  destruct (AddHeader_appends growcap h n l header value Hwf Hl)
    as (h' & Hadd & Hwf' & Hobs).
  exists h'. split; [exact Hadd |]. split; [exact Hwf' |].
  rewrite observed_headers_view, Hl in Hobs.
  unfold header_view in Hobs. rewrite lookup_fmap in Hobs.
  unfold map_index.
  destruct (map_of h' (Some l) !! header) as [s|];
    [injection Hobs as Hobs; exact Hobs | discriminate Hobs].
Qed.

(** X5: WithHeaders with a map just made gives a ServerError with the same
    code, description, cause, text and wrapped bytes that holds that map;
    AddHeader on it returns, in any heap, and the ServerError then shows
    the one name with the one value and nothing else. *)
Theorem WithHeaders_new_map_then_AddHeader
    (h : heap) (err : option error) (code description header value : string) :
  exists n' h2,
    WithHeaders (WrapServerErr err code description) (Some (make_map h).2)
      = EServer n'
    /\ Code n' = code /\ Description n' = description /\ Cause n' = err
    /\ Headers n' = Some (make_map h).2
    /\ ServerError_Error n'
       = ServerError_Error (WrapServerErr err code description)
    /\ GetWrapped n' = GetWrapped (WrapServerErr err code description)
    /\ AddHeader growcap (make_map h).1 n' header value = Ret (h2, n')
    /\ observed_headers h2 n' = {[ header := [value] ]}.
Proof.
  eexists. eexists. split; [reflexivity |].
  split; [reflexivity |]. split; [reflexivity |]. split; [reflexivity |].
  split; [reflexivity |]. split; [reflexivity |]. split; [reflexivity |].
  split; [apply AddHeader_on_map; reflexivity |].
  rewrite observed_headers_view. cbn [Headers].
  set (l := (make_map h).2). set (h1 := (make_map h).1).
  assert (Hempty : map_of h1 (Some l) = ∅).
  { unfold h1, l, make_map. simpl. now rewrite lookup_insert_eq. }
  assert (Hnil : map_index h1 (Some l) header = SNil).
  { unfold map_index. now rewrite Hempty, lookup_empty. }
  rewrite Hnil.
  destruct (append_result growcap h1 SNil value I) as (Hres & _).
  destruct (append_keeps growcap h1 SNil value SNil) as (Hmaps & _).
  unfold header_view, map_of, map_store. cbn [maps].
  rewrite lookup_insert_eq. cbn [from_option id].
  rewrite Hmaps. change (default ∅ (maps h1 !! l)) with (map_of h1 (Some l)).
  rewrite Hempty, fmap_insert, fmap_empty, insert_empty. f_equal.
  transitivity (elems (append growcap h1 SNil value).1
                  (append growcap h1 SNil value).2);
    [now apply elems_arrays | exact Hres].
Qed.

(** X6: on a ServerError with a header map, in a well-formed heap,
    AddHeader called for each value of a list in turn returns the
    receiver, keeps the heap well formed, and the name shows its former
    values followed by the list, in the order of the calls. *)
Theorem AddHeader_each_appends_all
    (values : list string) (h : heap) (n : ServerError) (l : loc)
    (header : string) :
  heap_wf h -> Headers n = Some l ->
  exists h',
    AddHeader_each growcap h n header values = Ret (h', n)
    /\ heap_wf h'
    /\ elems h' (map_index h' (Some l) header)
       = elems h (map_index h (Some l) header) ++ values.
Proof.
  revert h. induction values as [|v rest IH]; intros h Hwf Hl.
  - exists h. simpl. now rewrite (right_id_L [] (++)).
  - destruct (AddHeader_index h n l header v Hwf Hl)
      as (h1 & Hadd & Hwf1 & Hel1).
    destruct (IH h1 Hwf1 Hl) as (h' & Hall & Hwf' & Hel').
    exists h'. simpl. rewrite Hadd. split; [exact Hall |].
    split; [exact Hwf' |]. rewrite Hel', Hel1.
    now rewrite <- (assoc_L (++)).
Qed.

End Building.

(* --------------------------------------------------------------------- *)
(* Texts, wrapped bytes and discrimination through wrappers               *)
(* --------------------------------------------------------------------- *)

Section TextsAndLayers.

(** X7: the bytes GetWrapped returns for a ServerError with a cause decode
    back to the cause's text, and the ServerError's own text is its
    description, ": " and that decoded text; this holds whatever the code
    and the header map are, so neither shows in the text or the bytes. *)
Theorem GetWrapped_decodes_to_cause_text
    (code description : string) (cause : error) (hd : option loc) :
  exists bytes,
    GetWrapped (mkServerError code description (Some cause) hd) = Some bytes
    /\ string_of_list_byte bytes = error_Error cause
    /\ ServerError_Error (mkServerError code description (Some cause) hd)
       = description ++ ": " ++ string_of_list_byte bytes.
Proof.
  eexists. split; [reflexivity |].
  rewrite string_of_list_byte_of_string. split; reflexivity.
Qed.

Lemma errors_as_wrap_layers (ls : list layer) (e : error) (t : ServiceError) :
  errors_as (wrap_layers ls e) t = errors_as e t.
Proof.
  induction ls as [|[msg|] rest IH]; simpl; [reflexivity | exact IH | exact IH].
Qed.

(** X8: any number of WithMessage and WithStack layers around an error
    leaves the answers of IsServiceError, AsServiceError and
    ServiceError.Is as they are: a ServiceError under the layers is
    returned with its three fields, and a ServerError under them is still
    no ServiceError, even one that wraps a ServiceError. *)
Theorem discrimination_through_layers (ls : list layer) (e : error) :
  IsServiceError (Some (wrap_layers ls e)) = IsServiceError (Some e)
  /\ AsServiceError (Some (wrap_layers ls e)) = AsServiceError (Some e)
  /\ (forall receiver,
        ServiceError_Is receiver (Some (wrap_layers ls e))
        = ServiceError_Is receiver (Some e))
  /\ (forall se, AsServiceError (Some (wrap_layers ls (EService se)))
                 = (se, true))
  /\ (forall se code description,
        AsServiceError
          (Some (wrap_layers ls
                   (EServer (WrapServerErr (Some (EService se))
                               code description))))
        = (zero_ServiceError, false)).
Proof.
  unfold IsServiceError, AsServiceError, ServiceError_Is, errors_As.
  rewrite errors_as_wrap_layers.
  split; [reflexivity |]. split; [reflexivity |]. split; [reflexivity |].
  split; intros; now rewrite errors_as_wrap_layers.
Qed.

Lemma length_append (a b : string) :
  String.length (a ++ b) = (String.length a + String.length b)%nat.
Proof.
  induction a as [|x a IH]; [reflexivity |].
  change (S (String.length (a ++ b))
          = S (String.length a + String.length b)%nat).
  now rewrite IH.
Qed.

Lemma append_inv_head (a b c : string) : a ++ b = a ++ c -> b = c.
Proof.
  induction a as [|x a IH]; [auto |].
  change (String x (a ++ b) = String x (a ++ c) -> b = c).
  intros [= H]. now apply IH.
Qed.

Lemma append_inv_tail (a b c : string) : a ++ c = b ++ c -> a = b.
Proof.
  revert b. induction a as [|x a IH]; intros [|y b] H.
  - reflexivity.
  - apply (f_equal String.length) in H.
    rewrite !length_append in H. simpl in H. lia.
  - apply (f_equal String.length) in H.
    rewrite !length_append in H. simpl in H. lia.
  - change (String x (a ++ c) = String y (b ++ c)) in H.
    injection H as -> H. f_equal. now apply IH.
Qed.

(** X9: for a given code and description the text of a ServiceError tells
    the details: two ServiceErrors that differ only in Details have
    different texts.  The text does not tell the three fields apart,
    though: code "a" with description "b: c" and code "a: b" with
    description "c" have the same text. *)
Theorem ServiceError_Error_tells_details (code description : string) :
  (forall d1 d2,
     ServiceError_Error (mkServiceError code description d1)
     = ServiceError_Error (mkServiceError code description d2) ->
     d1 = d2)
  /\ ServiceError_Error (mkServiceError "a" "b: c" "")
     = ServiceError_Error (mkServiceError "a: b" "c" "").
Proof.
  split; [| reflexivity].
  assert (Hne : forall d,
            code ++ ": " ++ description
            <> code ++ ": " ++ description ++ " (" ++ d ++ ")").
  { intros d H. apply (f_equal String.length) in H.
    rewrite !length_append in H. simpl in H. lia. }
  intros d1 d2. unfold ServiceError_Error.
  cbn [se_Code se_Description se_Details].
  destruct (String.eqb_spec d1 "") as [-> | H1];
    destruct (String.eqb_spec d2 "") as [-> | H2]; intros H.
  - reflexivity.
  - now apply Hne in H.
  - symmetry in H. now apply Hne in H.
  - do 4 apply append_inv_head in H. now apply append_inv_tail in H.
Qed.

End TextsAndLayers.

(* --------------------------------------------------------------------- *)
(* The option of GetOptHeaders, applied once, twice, and before a         *)
(* later header mutation                                                   *)
(* --------------------------------------------------------------------- *)

Section Decorating.

Local Open Scope list_scope.

Variable growcap : nat -> nat -> nat.

Lemma merge_into_maps (h : heap) (ln lm : loc) :
  arrays (merge_into h ln lm) = arrays h
  /\ forall hd,
       map_of (merge_into h ln lm) hd
       = if decide (hd = Some lm)
         then map_of h (Some ln) ∪ map_of h (Some lm)
         else map_of h hd.
Proof.
  destruct (range_store h lm (map_of h (Some ln))) as (Ha & Ho & Hu).
  cbv zeta in Ha, Ho, Hu. split; [exact Ha |].
  intros hd. case_decide as Hd.
  - subst hd. exact Hu.
  - destruct hd as [l|]; [| reflexivity].
    change (default ∅ (maps (merge_into h ln lm) !! l)
            = default ∅ (maps h !! l)).
    unfold merge_into. rewrite Ho by congruence. reflexivity.
Qed.

Lemma merge_into_wf (h : heap) (ln lm : loc) :
  heap_wf h -> heap_wf (merge_into h ln lm).
Proof.
  intros Hwf l m Hl k s Hk.
  destruct (merge_into_maps h ln lm) as (Ha & Hof).
  apply (slice_wf_arrays h); [now rewrite Ha |].
  assert (Hm : map_of (merge_into h ln lm) (Some l) !! k = Some s).
  { unfold map_of. now rewrite Hl. }
  rewrite Hof in Hm. case_decide as Hd.
  - apply lookup_union_Some_raw in Hm as [Hm | [_ Hm]];
      exact (map_of_wf h _ k s Hwf Hm).
  - exact (map_of_wf h _ k s Hwf Hm).
Qed.


(** X10: applying the option of GetOptHeaders a second time changes
    nothing more: the message, the backing arrays and the contents of
    every map are what they were after the first application. *)
Theorem GetOptHeaders_twice_is_once (h : heap) (n : ServerError) (m : Msg) :
  (GetOptHeaders h n
     (GetOptHeaders h n h m).1 (GetOptHeaders h n h m).2).2
  = (GetOptHeaders h n h m).2
  /\ arrays (GetOptHeaders h n
               (GetOptHeaders h n h m).1 (GetOptHeaders h n h m).2).1
     = arrays (GetOptHeaders h n h m).1
  /\ forall hd,
       map_of (GetOptHeaders h n
                 (GetOptHeaders h n h m).1 (GetOptHeaders h n h m).2).1 hd
       = map_of (GetOptHeaders h n h m).1 hd.
Proof.
  destruct (decide (map_of h (Headers n) = ∅)) as [He|Hne].
  - rewrite !(GetOptHeaders_noop h n He). repeat split.
  - destruct (GetOptHeaders_merge h n Hne) as (ln & Hln & Hopt).
    rewrite (Hopt h m). destruct (Header m) as [lm|] eqn:Hm.
    + cbn [fst snd]. rewrite Hopt, Hm.
      change (map_fold _ h (map_of h (Some ln))) with (merge_into h ln lm).
      change (map_fold _ (merge_into h ln lm)
                (map_of (merge_into h ln lm) (Some ln)))
        with (merge_into (merge_into h ln lm) ln lm).
      cbn [fst snd].
      destruct (merge_into_maps h ln lm) as (Ha1 & Hof1).
      destruct (merge_into_maps (merge_into h ln lm) ln lm) as (Ha2 & Hof2).
      split; [reflexivity |]. split; [exact Ha2 |].
      intros hd. rewrite Hof2. case_decide as Hd; [| reflexivity].
      subst hd. rewrite !Hof1.
      rewrite (decide_True (P := Some lm = Some lm)) by reflexivity.
      case_decide as Hl.
      * apply (idemp_L (∪)).
      * now rewrite (assoc_L (∪)), (idemp_L (∪)).
    + cbn [fst snd]. rewrite Hopt. cbn [Header].
      change (map_fold _ h (map_of h (Some ln))) with (merge_into h ln ln).
      cbn [fst snd].
      destruct (merge_into_maps h ln ln) as (Ha & Hof).
      split; [reflexivity |]. split; [exact Ha |].
      intros hd. rewrite Hof. case_decide as Hd; [| reflexivity].
      subst hd. apply (idemp_L (∪)).
Qed.

(** X11: in a well-formed heap the option of GetOptHeaders keeps the heap
    well formed and every backing array as it is, and changes no map but
    the message's; in particular the ServerError shows the headers it
    showed unless the message holds the ServerError's own map. *)
Theorem GetOptHeaders_keeps_heap (h : heap) (n : ServerError) (m : Msg) :
  heap_wf h ->
  heap_wf (GetOptHeaders h n h m).1
  /\ arrays (GetOptHeaders h n h m).1 = arrays h
  /\ (forall hd, hd <> Header m ->
        map_of (GetOptHeaders h n h m).1 hd = map_of h hd)
  /\ (Headers n <> Header m ->
        observed_headers (GetOptHeaders h n h m).1 n = observed_headers h n).
Proof.
  intros Hwf.
  assert (Hgoal :
    heap_wf (GetOptHeaders h n h m).1
    /\ arrays (GetOptHeaders h n h m).1 = arrays h
    /\ (forall hd, hd <> Header m ->
          map_of (GetOptHeaders h n h m).1 hd = map_of h hd)).
  { destruct (decide (map_of h (Headers n) = ∅)) as [He|Hne].
    - rewrite (GetOptHeaders_noop h n He). repeat split. exact Hwf.
    - destruct (GetOptHeaders_merge h n Hne) as (ln & Hln & Hopt).
      rewrite (Hopt h m). destruct (Header m) as [lm|] eqn:Hm; cbn [fst].
      + change (map_fold _ h (map_of h (Some ln))) with (merge_into h ln lm).
        destruct (merge_into_maps h ln lm) as (Ha & Hof).
        split; [now apply merge_into_wf |]. split; [exact Ha |].
        intros hd Hd. rewrite Hof. now rewrite decide_False by exact Hd.
      + repeat split. exact Hwf. }
  destruct Hgoal as (H1 & H2 & H3).
  split; [exact H1 |]. split; [exact H2 |]. split; [exact H3 |].
  intros Hd. rewrite !observed_headers_view. unfold header_view.
  rewrite (H3 _ Hd). apply map_fmap_ext. intros j t _.
  now apply elems_arrays.
Qed.





End Decorating.

(* --------------------------------------------------------------------- *)
(* The properties with hypotheses, on concrete heaps                      *)
(* --------------------------------------------------------------------- *)

Section Instances.

Local Open Scope list_scope.

Lemma AddHeader_on_map_appends_witness :
  exists h',
    AddHeader go_growcap heap_two_maps err_map2 "A" "z" = Ret (h', err_map2)
    /\ heap_wf h'
    /\ elems h' (map_index h' (Some 2%positive) "A")
       = elems heap_two_maps (map_index heap_two_maps (Some 2%positive) "A")
         ++ ["z"%string]
    /\ (forall k, k <> "A"%string ->
          map_index h' (Some 2%positive) k
          = map_index heap_two_maps (Some 2%positive) k
          /\ (separate (map_index heap_two_maps (Some 2%positive) "A")
                       (map_index heap_two_maps (Some 2%positive) k) ->
              elems h' (map_index h' (Some 2%positive) k)
              = elems heap_two_maps
                  (map_index heap_two_maps (Some 2%positive) k))).
Proof.
  apply (AddHeader_on_map_appends go_growcap heap_two_maps err_map2
           2%positive "A" "z").
  - apply (bool_decide_unpack _). vm_compute. exact I.
  - reflexivity.
Defined.

Lemma SetHeader_on_map_replaces_witness :
  exists h',
    SetHeader heap_two_maps err_map2 "A" "z" = Ret (h', err_map2)
    /\ heap_wf h'
    /\ elems h' (map_index h' (Some 2%positive) "A") = ["z"%string]
    /\ (forall k, k <> "A"%string ->
          map_index h' (Some 2%positive) k
          = map_index heap_two_maps (Some 2%positive) k
          /\ elems h' (map_index h' (Some 2%positive) k)
             = elems heap_two_maps
                 (map_index heap_two_maps (Some 2%positive) k)).
Proof.
  apply (SetHeader_on_map_replaces heap_two_maps err_map2 2%positive "A" "z").
  - apply (bool_decide_unpack _). vm_compute. exact I.
  - reflexivity.
Defined.

Lemma AddHeader_each_appends_all_witness :
  exists h',
    AddHeader_each go_growcap heap_two_maps err_map2 "A"
      ["y"%string; "z"%string] = Ret (h', err_map2)
    /\ heap_wf h'
    /\ elems h' (map_index h' (Some 2%positive) "A")
       = elems heap_two_maps (map_index heap_two_maps (Some 2%positive) "A")
         ++ ["y"%string; "z"%string].
Proof.
  apply (AddHeader_each_appends_all go_growcap ["y"%string; "z"%string]
           heap_two_maps err_map2 2%positive "A").
  - apply (bool_decide_unpack _). vm_compute. exact I.
  - reflexivity.
Defined.

Lemma GetOptHeaders_keeps_heap_witness :
  heap_wf (GetOptHeaders heap_msg err_map1 heap_msg msg_A_y).1
  /\ arrays (GetOptHeaders heap_msg err_map1 heap_msg msg_A_y).1
     = arrays heap_msg
  /\ (forall hd, hd <> Header msg_A_y ->
        map_of (GetOptHeaders heap_msg err_map1 heap_msg msg_A_y).1 hd
        = map_of heap_msg hd)
  /\ (Headers err_map1 <> Header msg_A_y ->
        observed_headers (GetOptHeaders heap_msg err_map1 heap_msg msg_A_y).1
          err_map1
        = observed_headers heap_msg err_map1).
Proof.
  apply (GetOptHeaders_keeps_heap heap_msg err_map1 msg_A_y).
  apply (bool_decide_unpack _). vm_compute. exact I.
Defined.



End Instances.
